(** * The fiftyone front end: sidebar field groups, sidebar layout,
      the dataset route and the Teams lead form

    A shallow embedding of
      - [electron/app/containers/SamplesContainer.tsx]
        ([DisplayOptionsWrapper]: the [labelNameGroups] loop,
        [getDisplayOptions], [updateSidebarHeight]),
      - [app/packages/app/src/Root/Datasets/Dataset.tsx] (the [Dataset]
        route component and its effect),
      - the Teams form component ([submit], [setFormValue] and the
        button's [disabled] expression),
      - the dataset container ([Dataset] with [useResetPaths]: its two
        effects and what it renders).

    JavaScript objects used as dictionaries are finite maps with string
    keys; a property read that yields [undefined] is [None], and where
    a value read from a plain object is used as it comes, the members it
    inherits from [Object.prototype] are modelled too.  Exceptions
    are values of a sum type, and the code that mutates component or
    store state is written in a small state-and-exception monad. *)

From Stdlib Require Import ZArith String Ascii.
From Stdlib Require OrderedTypeEx.
From stdpp Require Import base gmap strings list sorting.

Local Open Scope string_scope.
Local Open Scope list_scope.

(** * Part I: the embedding *)

(** ** JavaScript exceptions *)

Inductive JsError : Type :=
| TypeError (msg : string)
| Error (msg : string)
| NotFoundError (path : string).

Definition Result (A : Type) : Type := JsError + A.

(** ** State and exceptions

    [Eff S A]: a computation over a mutable state [S] that returns an [A]
    or throws.  A throw keeps the state reached so far, as a JavaScript
    exception does. *)

Definition Eff (S A : Type) : Type := S → Result A * S.

Section Eff.
Context {S : Type}.

Definition ret {A} (a : A) : Eff S A := λ s, (inr a, s).
Definition throw {A} (e : JsError) : Eff S A := λ s, (inl e, s).
Definition bind {A B} (m : Eff S A) (k : A → Eff S B) : Eff S B :=
  λ s, match m s with
       | (inl e, s') => (inl e, s')
       | (inr a, s') => k a s'
       end.
(** [try { m } catch (e) { h e }], and [promise.catch(h)]. *)
Definition catch {A} (m : Eff S A) (h : JsError → Eff S A) : Eff S A :=
  λ s, match m s with
       | (inl e, s') => h e s'
       | (inr a, s') => (inr a, s')
       end.
Definition gets {A} (f : S → A) : Eff S A := λ s, (inr (f s), s).
Definition modify (f : S → S) : Eff S unit := λ s, (inr tt, f s).
End Eff.

Notation "x <- m ;; k" := (bind m (λ x, k))
  (at level 20, m at level 99, k at level 200, only parsing).
Notation "m ;; k" := (bind m (λ _, k))
  (at level 100, k at level 200, only parsing, right associativity).

(** Reading a member of a reference that may be [null]: a [TypeError]
    on [null]. *)
Definition member {S A} (r : option A) : Eff S A :=
  match r with
  | Some a => ret a
  | None => throw (TypeError "Cannot read properties of null")
  end.

(** Truthiness of a reference, of a string and of a number. *)
Definition truthy_ref {A} (r : option A) : bool :=
  match r with Some _ => true | None => false end.
Definition truthy_string (s : string) : bool :=
  negb (String.eqb s "").
Definition truthy_number (n : Z) : bool := negb (n =? 0)%Z.

(** ** Property reads on plain objects

    [o[k]] on a plain object finds the own property [k] if there is one,
    else the member of that name that the object inherits from
    [Object.prototype], else [undefined].  The inherited members are
    functions, and for ["__proto__"] the prototype object itself: all
    truthy. *)

Definition Object_prototype_members : list string :=
  ["constructor"; "__defineGetter__"; "__defineSetter__"; "hasOwnProperty";
   "__lookupGetter__"; "__lookupSetter__"; "isPrototypeOf";
   "propertyIsEnumerable"; "toString"; "valueOf"; "__proto__";
   "toLocaleString"].

Inductive Property (V : Type) : Type :=
| Own (v : V)
| Inherited (member : string)
| Undefined.
Arguments Own {V} v.
Arguments Inherited {V} member.
Arguments Undefined {V}.

Definition get_property {V : Type} (o : gmap string V) (k : string)
  : Property V :=
  match o !! k with
  | Some v => Own v
  | None =>
      if bool_decide (k ∈ Object_prototype_members) then Inherited k
      else Undefined
  end.

(** [Boolean(o[k])] for an object whose own values are booleans. *)
Definition Boolean_property (p : Property bool) : bool :=
  match p with
  | Own b => b
  | Inherited _ => true
  | Undefined => false
  end.

(** ** SamplesContainer.tsx *)

Module SamplesContainer.

(** The object literals [{ name, type: labelTypes[name] }] and [{ name }]
    pushed by the loop; [type] is absent ([None]) in the second form. *)
Record Entry : Type := mkEntry { name : string; type : option string }.

(** [labelNameGroups]: three arrays, filled by [push]. *)
Record Groups : Type := mkGroups {
  labels : list Entry;
  scalars : list Entry;
  unsupported : list Entry
}.

(** [{ name, type, count, selected }] built by [getDisplayOptions]. *)
Record DisplayOption : Type := mkDisplayOption {
  opt_name : string;
  opt_type : option string;
  count : Property Z;
  selected : bool
}.

(** [arr.includes(v)] for an array of strings and a value that is a
    string or [undefined]: [undefined] is never an element. *)
Definition includes (arr : list string) (v : option string) : bool :=
  match v with
  | Some s => bool_decide (s ∈ arr)
  | None => false
  end.

Definition names (es : list Entry) : list string := name <$> es.

Section Classifier.
(** The two allow-lists are imported from [../utils/labels]. *)
Variables VALID_LABEL_TYPES VALID_SCALAR_TYPES : list string.
(** [selectors.labelTypes] and [selectors.fieldSchema]. *)
Variables labelTypes fieldSchema : gmap string string.

(** One iteration of [for (const name of labelNames)]. *)
Definition classify_step (g : Groups) (n : string) : Groups :=
  if includes VALID_LABEL_TYPES (labelTypes !! n) then
    mkGroups (labels g ++ [mkEntry n (labelTypes !! n)]) (scalars g) (unsupported g)
  else if includes VALID_SCALAR_TYPES (fieldSchema !! n) then
    mkGroups (labels g) (scalars g ++ [mkEntry n None]) (unsupported g)
  else
    mkGroups (labels g) (scalars g) (unsupported g ++ [mkEntry n None]).

Definition labelNameGroups (labelNames : list string) : Groups :=
  foldl classify_step (mkGroups [] [] []) labelNames.

(** The three branch conditions, as predicates on a name. *)
Definition is_label (n : string) : Prop :=
  includes VALID_LABEL_TYPES (labelTypes !! n) = true.
Definition is_scalar (n : string) : Prop :=
  includes VALID_LABEL_TYPES (labelTypes !! n) = false
  ∧ includes VALID_SCALAR_TYPES (fieldSchema !! n) = true.
Definition is_unsupported (n : string) : Prop :=
  includes VALID_LABEL_TYPES (labelTypes !! n) = false
  ∧ includes VALID_SCALAR_TYPES (fieldSchema !! n) = false.

#[export] Instance is_label_dec n : Decision (is_label n).
Proof. unfold is_label. apply _. Defined.
#[export] Instance is_scalar_dec n : Decision (is_scalar n).
Proof. unfold is_scalar. apply _. Defined.
#[export] Instance is_unsupported_dec n : Decision (is_unsupported n).
Proof. unfold is_unsupported. apply _. Defined.

End Classifier.

(** The end-to-end example of the specification: allow-lists
    [{Classification}] and [{float}], three fields. *)
Definition example_labelTypes : gmap string string :=
  {[ "tags" := "Classification" ]}.
Definition example_fieldSchema : gmap string string :=
  {[ "confidence" := "float"; "blob" := "UnknownType" ]}.
Definition example_groups : Groups :=
  labelNameGroups ["Classification"] ["float"]
    example_labelTypes example_fieldSchema ["tags"; "confidence"; "blob"].

(** *** [Array.prototype.sort] without a comparator

    With no comparator, [sort] orders the elements by the code units of
    their string conversions ([SortCompare] of ECMAScript: [-1] when
    [ToString(x) < ToString(y)], [1] when [ToString(y) < ToString(x)],
    [+0] otherwise), and it is stable.  The model is a stable insertion
    sort on the key [ToString]. *)

Section Sort.
Context {A : Type} (ToString : A → string).

Definition SortCompare (x y : A) : comparison :=
  String.compare (ToString x) (ToString y).

(** [x] stood before every element of [l] in the array: it goes before
    the first element that is not strictly smaller. *)
Fixpoint sort_insert (x : A) (l : list A) : list A :=
  match l with
  | [] => [x]
  | y :: l' =>
      match SortCompare y x with
      | Lt => y :: sort_insert x l'
      | _ => x :: y :: l'
      end
  end.

Definition sort (l : list A) : list A := foldr sort_insert [] l.

(** Ascending order of the string conversions. *)
Definition key_le (x y : A) : Prop := SortCompare x y ≠ Gt.

End Sort.

(** The array elements in [getDisplayOptions] are plain objects, whose
    string conversion is that of [Object.prototype.toString]. *)
Definition Entry_ToString (_ : Entry) : string := "[object Object]".

(** [getDisplayOptions(values, counts, selected)]:
    [[...values].sort().map(({ name, type }) => ...)].  [counts] and
    [selected] are plain objects: [counts[name]] is passed on as it is
    read, [selected[name]] goes through [Boolean]. *)
Definition getDisplayOptions (values : list Entry)
    (counts : gmap string Z) (selected : gmap string bool)
  : list DisplayOption :=
  (λ e, mkDisplayOption (name e) (type e) (get_property counts (name e))
          (Boolean_property (get_property selected (name e))))
    <$> sort Entry_ToString values.

(** Ascending lexicographic order of the [name]s. *)
Definition sorted_by_name (l : list DisplayOption) : Prop :=
  StronglySorted (λ a b, String.compare (opt_name a) (opt_name b) ≠ Gt) l.

(** *** [updateSidebarHeight]

    Pixel quantities are integers here.  [sidebarHeight] starts as the
    string ["unset"]. *)

Inductive SidebarHeight : Type :=
| Unset
| Px (h : Z).

Record DOMRect : Type := mkDOMRect { rect_top : Z; rect_height : Z }.
Record Element : Type := mkElement { getBoundingClientRect : DOMRect }.

(** What the handler reads: [window.innerHeight] and [sidebarRef.current]. *)
Record LayoutEnv : Type := mkLayoutEnv {
  innerHeight : Z;
  sidebarRef_current : option Element
}.

Definition setSidebarHeight (h : SidebarHeight) : Eff SidebarHeight unit :=
  modify (λ _, h).

Definition updateSidebarHeight (env : LayoutEnv) : Eff SidebarHeight unit :=
  if truthy_ref (sidebarRef_current env) then
    el <- member (sidebarRef_current env) ;;
    setSidebarHeight (Px (innerHeight env - rect_top (getBoundingClientRect el)))
  else ret tt.

(** The same body without its guard, for comparison. *)
Definition updateSidebarHeight_unguarded (env : LayoutEnv)
  : Eff SidebarHeight unit :=
  el <- member (sidebarRef_current env) ;;
  setSidebarHeight (Px (innerHeight env - rect_top (getBoundingClientRect el))).

(** A run of recomputes, one per resize, scroll or mount event, each
    reading the window and the reference as they are at that moment. *)
Fixpoint updateSidebarHeight_run (envs : list LayoutEnv)
  : Eff SidebarHeight unit :=
  match envs with
  | [] => ret tt
  | env :: envs' => updateSidebarHeight env ;; updateSidebarHeight_run envs'
  end.

(** *** [handleSetDisplayOption]

    [handleSetDisplayOption(selected, setSelected)(entry)] calls
    [setSelected] with the updater
    [(selected) => ({ ...selected, [entry.name]: entry.selected })]; the
    state is the selection map that [setSelected] owns. *)
Definition handleSetDisplayOption (entry : DisplayOption)
  : Eff (gmap string bool) unit :=
  modify (λ sel, <[opt_name entry := selected entry]> sel).

(** *** The props of [DisplayOptionsSidebar]

    The values read from the store, the three selection maps of
    [displayProps], and the four option lists the wrapper passes on. *)
Record Recoil : Type := mkRecoil {
  labelSampleCounts : gmap string Z;
  tagNames : list string;
  tagSampleCounts : gmap string Z;
  fieldSchema : gmap string string;
  labelNames : list string;
  labelTypes : gmap string string
}.

Record DisplayProps : Type := mkDisplayProps {
  activeTags : gmap string bool;
  activeLabels : gmap string bool;
  activeOther : gmap string bool
}.

Record SidebarProps : Type := mkSidebarProps {
  sb_tags : list DisplayOption;
  sb_labels : list DisplayOption;
  sb_scalars : list DisplayOption;
  sb_unsupported : list DisplayOption
}.

Definition DisplayOptionsWrapper
    (VALID_LABEL_TYPES VALID_SCALAR_TYPES : list string)
    (r : Recoil) (p : DisplayProps) : SidebarProps :=
  let labelNameGroups :=
    labelNameGroups VALID_LABEL_TYPES VALID_SCALAR_TYPES
      (labelTypes r) (fieldSchema r) (labelNames r) in
  mkSidebarProps
    (getDisplayOptions ((λ t, mkEntry t None) <$> tagNames r)
       (tagSampleCounts r) (activeTags p))
    (getDisplayOptions (labels labelNameGroups)
       (labelSampleCounts r) (activeLabels p))
    (getDisplayOptions (scalars labelNameGroups)
       (labelSampleCounts r) (activeOther p))
    (getDisplayOptions (unsupported labelNameGroups)
       (labelSampleCounts r) (activeLabels p)).

End SamplesContainer.

(** ** Root/Datasets/Dataset.tsx *)

Module DatasetRoute.

(** What the route component returns: [null] or [<DatasetComponent />]. *)
Inductive Element : Type := Null | DatasetComponent.

(** A JavaScript object: its identity and its content.  [Object.is],
    which React uses on dependency lists, compares identities. *)
Record Obj (DatasetData : Type) : Type := mkObj {
  oid : positive;
  content : DatasetData
}.
Arguments mkObj {DatasetData} oid content.
Arguments oid {DatasetData} o.
Arguments content {DatasetData} o.

(** The shared store, seen through [useStateUpdate]: every call of
    [update] is recorded, newest last. *)
Record Store (DatasetState : Type) : Type := mkStore {
  published : list DatasetState
}.
Arguments mkStore {DatasetState} published.
Arguments published {DatasetState} s.

(** An effect registered by [useEffect(create, deps)]. *)
Record Effect (DatasetState : Type) : Type := mkEffect {
  deps : list positive;
  create : Eff (Store DatasetState) unit
}.
Arguments mkEffect {DatasetState} deps create.
Arguments deps {DatasetState} e.
Arguments create {DatasetState} e.

(** The hook memory of a mounted component instance: the dependency
    list of the effect committed last, [None] before the first commit. *)
Definition Fiber : Type := option (list positive).

Section Route.
(** The [dataset] record of the query response, and the shape that
    [transformDataset] (imported from [./transformDataset]) gives it. *)
Variables DatasetData DatasetState : Type.
Variable transformDataset : DatasetData → DatasetState.

Definition update (d : DatasetState) : Eff (Store DatasetState) unit :=
  modify (λ st, mkStore (published st ++ [d])).

(** The body of [Dataset]: it throws on a null [dataset] before the
    effect is registered; otherwise it registers the effect with
    dependencies [[dataset]] and returns [null] when [name] is falsy. *)
Definition Dataset (pathname : string) (dataset : option (Obj DatasetData))
    (name : option string) : Result (Effect DatasetState * Element) :=
  match dataset with
  | None => inl (NotFoundError pathname)
  | Some d =>
      let effect := mkEffect [oid d] (update (transformDataset (content d))) in
      match name with
      | Some n => if truthy_string n then inr (effect, DatasetComponent)
                  else inr (effect, Null)
      | None => inr (effect, Null)
      end
  end.

(** React's commit of an effect: [create] runs on the first commit and
    whenever the dependency list differs from the one committed last. *)
Definition areHookInputsEqual (prev next : list positive) : bool :=
  bool_decide (prev = next).

Definition commitEffect (fiber : Fiber) (e : Effect DatasetState)
  : Eff (Store DatasetState) Fiber :=
  match fiber with
  | Some prev =>
      if areHookInputsEqual prev (deps e) then ret (Some (deps e))
      else (create e ;; ret (Some (deps e)))
  | None => create e ;; ret (Some (deps e))
  end.

(** One render pass of an instance.  A throw leaves the render
    uncommitted: the exception is the result of the pass, for the
    enclosing error boundary, and the store does not change.  React
    unmounts the instance that threw, so its hook memory is gone: the
    next pass is a first commit again. *)
Definition render_pass (pathname : string) (dataset : option (Obj DatasetData))
    (name : option string) (fiber : Fiber) (store : Store DatasetState)
  : Result Element * Fiber * Store DatasetState :=
  match Dataset pathname dataset name with
  | inl e => (inl e, None, store)
  | inr (effect, el) =>
      match commitEffect fiber effect store with
      | (inr fiber', store') => (inr el, fiber', store')
      | (inl e, store') => (inl e, None, store')
      end
  end.

(** Successive render passes of one instance over the same response
    object; [names] gives the value of [datasetName] at each pass. *)
Fixpoint render_passes (pathname : string) (d : Obj DatasetData)
    (names : list (option string)) (fiber : Fiber) (store : Store DatasetState)
  : Fiber * Store DatasetState :=
  match names with
  | [] => (fiber, store)
  | n :: names' =>
      let '(_, fiber', store') := render_pass pathname (Some d) n fiber store in
      render_passes pathname d names' fiber' store'
  end.

Definition updates (st : Store DatasetState) : nat := length (published st).

End Route.

(** The hook memory after a pass over an object of identity [o], and
    before the first pass. *)
Definition fiber_of (prev : option positive) : Fiber := (λ o, [o]) <$> prev.

Section Sequences.
Variables DatasetData DatasetState : Type.
Variable transformDataset : DatasetData → DatasetState.

(** Successive render passes of one instance, each with the response
    object and the [datasetName] it is rendered with. *)
Fixpoint render_sequence (pathname : string)
    (ps : list (Obj DatasetData * option string))
    (fiber : Fiber) (store : Store DatasetState)
  : Fiber * Store DatasetState :=
  match ps with
  | [] => (fiber, store)
  | (d, n) :: ps' =>
      let '(_, fiber', store') :=
        render_pass DatasetData DatasetState transformDataset
          pathname (Some d) n fiber store in
      render_sequence pathname ps' fiber' store'
  end.

(** The objects of a sequence whose identity differs from that of the
    object before them; [prev] is the identity before the first. *)
Fixpoint changes (prev : option positive) (ds : list (Obj DatasetData))
  : list (Obj DatasetData) :=
  match ds with
  | [] => []
  | d :: ds' =>
      if decide (prev = Some (oid d)) then changes (Some (oid d)) ds'
      else d :: changes (Some (oid d)) ds'
  end.

End Sequences.

End DatasetRoute.

(** ** The Teams form *)

Module Teams.

Local Open Scope Z_scope.

Record FormState : Type := mkFormState {
  email : string;
  firstname : string;
  lastname : string;
  company : string;
  role : string;
  discover : string
}.

(** The [atoms.teams] record.  The component reads and writes
    [submitted]; the spread [{ ...cur, submitted: true }] copies whatever
    other properties the atom has. *)
Record TeamsAtom : Type := mkTeamsAtom {
  submitted : bool;
  others : list (string * string)
}.

(** Request bodies: the serialized submission and the empty object. *)
Inductive Body : Type :=
| Submission (submittedAt : Z) (fields : list (string * string))
    (pageName : string)
| EmptyObject.

Record Request : Type := mkRequest {
  method : string;
  url : string;
  body : Body
}.

(** The one callback the component ever schedules:
    [setTimeout(() => setOpen(false), 2000)]. *)
Inductive Callback : Type := SetOpenFalse.

(** Component state ([formState], [submitText]), the two atoms, and the
    traces of what the component sent and scheduled, newest last. *)
Record State : Type := mkState {
  formState : FormState;
  submitText : string;
  teams : TeamsAtom;
  appTeamsIsOpen : bool;
  network : list Request;
  timers : list (Z * Callback)
}.

Definition initialFormState : FormState := mkFormState "" "" "" "" "" "".

Definition portalId : string := "4972700".
Definition formId : string := "87aa5367-a8f1-4ed4-9e23-1fdf8448d807".
Definition postUrl : string :=
  "https://api.hsforms.com/submissions/v3/integration/submit/"
    +:+ portalId +:+ "/" +:+ formId.

(** ** The button's [disabled] expression *)

(** [a && b] on numbers: [a] when [a] is falsy, else [b]. *)
Definition js_and (a b : Z) : Z := if truthy_number a then b else a.

Definition str_length (s : string) : Z := Z.of_nat (String.length s).

(** [!(email?.length && firstname?.length && lastname?.length)
      || teams.submitted] *)
Definition disabled (fs : FormState) (t : TeamsAtom) : bool :=
  negb (truthy_number
          (js_and (js_and (str_length (email fs)) (str_length (firstname fs)))
                  (str_length (lastname fs))))
  || submitted t.

(** ** [submit] *)

Definition setSubmitText (s : string) : Eff State unit :=
  modify (λ st, mkState (formState st) s (teams st) (appTeamsIsOpen st)
                  (network st) (timers st)).

Definition setTeams (f : TeamsAtom → TeamsAtom) : Eff State unit :=
  modify (λ st, mkState (formState st) (submitText st) (f (teams st))
                  (appTeamsIsOpen st) (network st) (timers st)).

Definition setOpen (b : bool) : Eff State unit :=
  modify (λ st, mkState (formState st) (submitText st) (teams st) b
                  (network st) (timers st)).

Definition send (r : Request) : Eff State unit :=
  modify (λ st, mkState (formState st) (submitText st) (teams st)
                  (appTeamsIsOpen st) (network st ++ [r]) (timers st)).

Definition setTimeout (cb : Callback) (delay : Z) : Eff State unit :=
  modify (λ st, mkState (formState st) (submitText st) (teams st)
                  (appTeamsIsOpen st) (network st) (timers st ++ [(delay, cb)])).

Definition run_callback (cb : Callback) : Eff State unit :=
  match cb with SetOpenFalse => setOpen false end.

(** The body of the request to the marketing endpoint. *)
Definition submission (now : Z) (fs : FormState) : Request :=
  mkRequest "post" postUrl
    (Submission now
       [("firstname", firstname fs); ("lastname", lastname fs);
        ("email", email fs); ("company", company fs); ("role", role fs);
        ("app_how_did_you_hear_about_us", discover fs)]
       "FiftyOne App").

(** How the [fetch] promise settles: rejected (a network failure), or
    fulfilled with a response of some status whose body parses as JSON
    or does not. *)
Inductive FetchOutcome : Type :=
| NetworkFailure
| Response (status : Z) (json_ok : bool).

Definition settle (o : FetchOutcome) : Eff State (Z * bool) :=
  match o with
  | NetworkFailure => throw (TypeError "Failed to fetch")
  | Response status json_ok => ret (status, json_ok)
  end.

(** First [then]: the status check and [response.json()]. *)
Definition check_status (r : Z * bool) : Eff State unit :=
  if negb (fst r =? 200) then throw (Error "Failed submission")
  else if snd r then ret tt
  else throw (Error "Unexpected token in JSON").

(** Second [then]: the success path. *)
Definition on_success : Eff State unit :=
  setSubmitText "Submitted. Thank you!" ;;
  setTeams (λ cur, mkTeamsAtom true (others cur)) ;;
  send (mkRequest "POST" "/teams?submitted=true" EmptyObject) ;;
  setTimeout SetOpenFalse 2000.

(** The part of [submit] that runs when it is called. *)
Definition submit_begin (now : Z) : Eff State unit :=
  setSubmitText "Submitting..." ;;
  fs <- gets formState ;;
  send (submission now fs).

(** The promise chain [.then(...).then(...).catch(...)], run when the
    request settles. *)
Definition submit_settled (o : FetchOutcome) : Eff State unit :=
  catch (r <- settle o ;; check_status r ;; on_success)
        (λ e, setSubmitText "Something went wrong").

Definition submit (now : Z) (o : FetchOutcome) : Eff State unit :=
  submit_begin now ;; submit_settled o.

(** A failed submission: the request was rejected, or answered with a
    status other than 200. *)
Definition failed (o : FetchOutcome) : Prop :=
  match o with
  | NetworkFailure => True
  | Response status _ => status ≠ 200
  end.

(** A filled form, not yet submitted, with nothing sent or scheduled. *)
Definition example_state : State :=
  mkState (mkFormState "a@b.c" "Ada" "Lovelace" "" "" "") "Submit"
    (mkTeamsAtom false []) true [] [].

(** ** The inputs, the close button and the timer *)

(** [{ ...formState, [name]: value }].  The six inputs pass the six
    field names; any other key would add a property that nothing reads. *)
Definition with_field (name value : string) (fs : FormState) : FormState :=
  if String.eqb name "email" then
    mkFormState value (firstname fs) (lastname fs) (company fs) (role fs)
      (discover fs)
  else if String.eqb name "firstname" then
    mkFormState (email fs) value (lastname fs) (company fs) (role fs)
      (discover fs)
  else if String.eqb name "lastname" then
    mkFormState (email fs) (firstname fs) value (company fs) (role fs)
      (discover fs)
  else if String.eqb name "company" then
    mkFormState (email fs) (firstname fs) (lastname fs) value (role fs)
      (discover fs)
  else if String.eqb name "role" then
    mkFormState (email fs) (firstname fs) (lastname fs) (company fs) value
      (discover fs)
  else if String.eqb name "discover" then
    mkFormState (email fs) (firstname fs) (lastname fs) (company fs) (role fs)
      value
  else fs.

(** The keys of [formState]. *)
Definition field_names : list string :=
  ["email"; "firstname"; "lastname"; "company"; "role"; "discover"].

(** [formState[name]] for the six field names. *)
Definition field (name : string) (fs : FormState) : option string :=
  if String.eqb name "email" then Some (email fs)
  else if String.eqb name "firstname" then Some (firstname fs)
  else if String.eqb name "lastname" then Some (lastname fs)
  else if String.eqb name "company" then Some (company fs)
  else if String.eqb name "role" then Some (role fs)
  else if String.eqb name "discover" then Some (discover fs)
  else None.

Definition setFormState (fs : FormState) : Eff State unit :=
  modify (λ st, mkState fs (submitText st) (teams st) (appTeamsIsOpen st)
                  (network st) (timers st)).

(** [setFormValue(name)(e)], with [e.target.value = value].  The
    handler spreads the [formState] of the render that created it. *)
Definition setFormValue (rendered : FormState) (name value : string)
  : Eff State unit :=
  setFormState (with_field name value rendered).

(** A change event on an input of the current render. *)
Definition change (name value : string) : Eff State unit :=
  fs <- gets formState ;; setFormValue fs name value.

(** The close button: [onClick={() => setOpen(false)}]. *)
Definition close : Eff State unit := setOpen false.

(** The timers fall due: every scheduled callback runs, in the order
    of scheduling, and none stays pending. *)
Fixpoint run_callbacks (cbs : list Callback) : Eff State unit :=
  match cbs with
  | [] => ret tt
  | cb :: cbs' => run_callback cb ;; run_callbacks cbs'
  end.

Definition fire_timers : Eff State unit :=
  cbs <- gets (λ st, snd <$> timers st) ;;
  modify (λ st, mkState (formState st) (submitText st) (teams st)
                  (appTeamsIsOpen st) (network st) []) ;;
  run_callbacks cbs.

End Teams.

(** ** The dataset container ([Dataset] with [useResetPaths]) *)

Module DatasetContainer.

(** The part of the document the component touches: the class list of
    [document.body] and that of the element with id ["modal"], which
    [getElementById] may not find. *)
Record Document : Type := mkDocument {
  body_classList : gset string;
  modal_classList : option (gset string)
}.

(** The document and the [activeFields({ modal: false })] atom. *)
Record World : Type := mkWorld {
  document : Document;
  activeFields : list string
}.

(** What a render reads from the store: [datasetName], [Boolean(modal)],
    [hasDataset] and [datasets]. *)
Record Values : Type := mkValues {
  dataset : option string;
  isModalActive : bool;
  hasDataset : bool;
  datasets : list string
}.

(** The hook memory of a mounted instance: the dependencies of its two
    effects as committed last, [None] before the first commit. *)
Record Hooks : Type := mkHooks {
  resetPaths_deps : option (option string);
  modal_deps : option bool
}.

Inductive Node : Type :=
| SampleModal
| HorizontalNav (entries : list string)
| SamplesContainer
| Loading (text : string).

Definition PLOTS : list string :=
  ["Sample tags"; "Label tags"; "Labels"; "Other fields"].

(** [classList.toggle(token, force)]: adds the token when [force] is
    true, removes it otherwise. *)
Definition toggle (token : string) (force : bool) (cl : gset string)
  : gset string :=
  if force then cl ∪ {[token]} else cl ∖ {[token]}.

(** The document with the two classes forced to [a]. *)
Definition with_modal (a : bool) (doc : Document) : Document :=
  mkDocument (toggle "noscroll" a (body_classList doc))
    (toggle "modalon" a <$> modal_classList doc).

(** The effect on [[isModalActive]]; [?.] skips a missing element. *)
Definition modal_effect (active : bool) : Eff World unit :=
  modify (λ w,
    mkWorld
      (mkDocument (toggle "noscroll" active (body_classList (document w)))
         (toggle "modalon" active <$> modal_classList (document w)))
      (activeFields w)).

(** React's commit of an effect with one dependency. *)
Definition commit {D : Type} `{EqDecision D} (prev : option D) (next : D)
    (create : Eff World unit) : Eff World (option D) :=
  match prev with
  | Some p => if bool_decide (p = next) then ret (Some next)
              else (create ;; ret (Some next))
  | None => create ;; ret (Some next)
  end.

(** What the component returns. *)
Definition render (v : Values) : list Node :=
  (if isModalActive v then [SampleModal] else [])
  ++ (if hasDataset v then [HorizontalNav PLOTS; SamplesContainer]
      else [Loading (if truthy_number (Z.of_nat (length (datasets v)))
                     then "No dataset selected" else "No datasets")]).

Section Container.
(** The default of the atom, which [useResetRecoilState] restores. *)
Variable default_activeFields : list string.

Definition resetPaths : Eff World unit :=
  modify (λ w, mkWorld (document w) default_activeFields).

(** One render pass: the effect of [useResetPaths] on [[dataset]], then
    the effect on [[isModalActive]]. *)
Definition Dataset (v : Values) (h : Hooks) : Eff World (Hooks * list Node) :=
  d1 <- commit (resetPaths_deps h) (dataset v) resetPaths ;;
  d2 <- commit (modal_deps h) (isModalActive v)
          (modal_effect (isModalActive v)) ;;
  ret (mkHooks d1 d2, render v).

(** Successive passes of one instance; the result is that of the last. *)
Fixpoint passes (vs : list Values) (h : Hooks) (last : list Node)
  : Eff World (Hooks * list Node) :=
  match vs with
  | [] => ret (h, last)
  | v :: vs' => r <- Dataset v h ;; passes vs' (fst r) (snd r)
  end.

(** The atom is written elsewhere in the application (the sidebar);
    this is its setter. *)
Definition setActiveFields (paths : list string) : Eff World unit :=
  modify (λ w, mkWorld (document w) paths).

End Container.

End DatasetContainer.

(** * Part II: properties *)

(** ** The field classifier, the display options and the sidebar height *)

Module SamplesContainerFacts.
Import SamplesContainer.

Section Classifier.
Variables VALID_LABEL_TYPES VALID_SCALAR_TYPES : list string.
Variables labelTypes fieldSchema : gmap string string.

Local Abbreviation step :=
  (classify_step VALID_LABEL_TYPES VALID_SCALAR_TYPES labelTypes fieldSchema).
Local Abbreviation groups :=
  (labelNameGroups VALID_LABEL_TYPES VALID_SCALAR_TYPES labelTypes fieldSchema).
Local Abbreviation label := (is_label VALID_LABEL_TYPES labelTypes).
Local Abbreviation scalar :=
  (is_scalar VALID_LABEL_TYPES VALID_SCALAR_TYPES labelTypes fieldSchema).
Local Abbreviation unsupp :=
  (is_unsupported VALID_LABEL_TYPES VALID_SCALAR_TYPES labelTypes fieldSchema).

(** Every name takes one of the three branches, and only one. *)
Lemma branch_cases (n : string) : label n ∨ scalar n ∨ unsupp n.
Proof.
  unfold is_label, is_scalar, is_unsupported.
  destruct (includes VALID_LABEL_TYPES (labelTypes !! n));
    destruct (includes VALID_SCALAR_TYPES (fieldSchema !! n)); naive_solver.
Qed.

Lemma label_not_scalar n : label n → ¬ scalar n.
Proof. unfold is_label, is_scalar. intros ? [? _]. congruence. Qed.
Lemma label_not_unsupported n : label n → ¬ unsupp n.
Proof. unfold is_label, is_unsupported. intros ? [? _]. congruence. Qed.
Lemma scalar_not_label n : scalar n → ¬ label n.
Proof. unfold is_label, is_scalar. intros [? _] ?. congruence. Qed.
Lemma scalar_not_unsupported n : scalar n → ¬ unsupp n.
Proof. unfold is_scalar, is_unsupported. intros [_ ?] [_ ?]. congruence. Qed.
Lemma unsupported_not_label n : unsupp n → ¬ label n.
Proof. unfold is_label, is_unsupported. intros [? _] ?. congruence. Qed.
Lemma unsupported_not_scalar n : unsupp n → ¬ scalar n.
Proof. unfold is_scalar, is_unsupported. intros [_ ?] [_ ?]. congruence. Qed.

(** What one iteration does in each branch. *)
Lemma classify_step_label g n :
  label n →
  step g n
  = mkGroups (labels g ++ [mkEntry n (labelTypes !! n)]) (scalars g)
      (unsupported g).
Proof. unfold is_label, classify_step. by intros ->. Qed.

Lemma classify_step_scalar g n :
  scalar n →
  step g n = mkGroups (labels g) (scalars g ++ [mkEntry n None]) (unsupported g).
Proof. unfold is_scalar, classify_step. by intros [-> ->]. Qed.

Lemma classify_step_unsupported g n :
  unsupp n →
  step g n = mkGroups (labels g) (scalars g) (unsupported g ++ [mkEntry n None]).
Proof. unfold is_unsupported, classify_step. by intros [-> ->]. Qed.

(** The loop appends to each array exactly the names that take the
    corresponding branch, in the order of [labelNames]. *)
Lemma foldl_classify_names (ns : list string) (g : Groups) :
  names (labels (foldl step g ns)) = names (labels g) ++ filter label ns
  ∧ names (scalars (foldl step g ns)) = names (scalars g) ++ filter scalar ns
  ∧ names (unsupported (foldl step g ns))
    = names (unsupported g) ++ filter unsupp ns.
Proof.
  revert g. induction ns as [|n ns IH]; intros g.
  - cbn [foldl]. by rewrite !filter_nil, !app_nil_r.
  - change (foldl step g (n :: ns)) with (foldl step (step g n) ns).
    destruct (IH (step g n)) as (Hl & Hs & Hu).
    rewrite Hl, Hs, Hu. clear IH Hl Hs Hu. unfold names.
    destruct (branch_cases n) as [H|[H|H]].
    + rewrite (classify_step_label g n H). cbn [labels scalars unsupported].
      rewrite (filter_cons_True label) by done.
      rewrite (filter_cons_False scalar) by by apply label_not_scalar.
      rewrite (filter_cons_False unsupp) by by apply label_not_unsupported.
      by rewrite fmap_app, <- app_assoc.
    + rewrite (classify_step_scalar g n H). cbn [labels scalars unsupported].
      rewrite (filter_cons_True scalar) by done.
      rewrite (filter_cons_False label) by by apply scalar_not_label.
      rewrite (filter_cons_False unsupp) by by apply scalar_not_unsupported.
      by rewrite fmap_app, <- app_assoc.
    + rewrite (classify_step_unsupported g n H).
      cbn [labels scalars unsupported].
      rewrite (filter_cons_True unsupp) by done.
      rewrite (filter_cons_False label) by by apply unsupported_not_label.
      rewrite (filter_cons_False scalar) by by apply unsupported_not_scalar.
      by rewrite fmap_app, <- app_assoc.
Qed.

Lemma labels_names (ns : list string) :
  names (labels (groups ns)) = filter label ns.
Proof. apply (foldl_classify_names ns (mkGroups [] [] [])). Qed.

Lemma scalars_names (ns : list string) :
  names (scalars (groups ns)) = filter scalar ns.
Proof. apply (foldl_classify_names ns (mkGroups [] [] [])). Qed.

Lemma unsupported_names (ns : list string) :
  names (unsupported (groups ns)) = filter unsupp ns.
Proof. apply (foldl_classify_names ns (mkGroups [] [] [])). Qed.

(** Together the three filters keep every occurrence of every name. *)
Lemma filter_three_way (ns : list string) :
  filter label ns ++ filter scalar ns ++ filter unsupp ns ≡ₚ ns.
Proof.
  induction ns as [|n ns IH]; [done|].
  destruct (branch_cases n) as [H|[H|H]].
  - rewrite (filter_cons_True label) by done.
    rewrite (filter_cons_False scalar) by by apply label_not_scalar.
    rewrite (filter_cons_False unsupp) by by apply label_not_unsupported.
    cbn. by rewrite IH.
  - rewrite (filter_cons_True scalar) by done.
    rewrite (filter_cons_False label) by by apply scalar_not_label.
    rewrite (filter_cons_False unsupp) by by apply scalar_not_unsupported.
    simpl. rewrite <- Permutation_middle. by rewrite IH.
  - rewrite (filter_cons_True unsupp) by done.
    rewrite (filter_cons_False label) by by apply unsupported_not_label.
    rewrite (filter_cons_False scalar) by by apply unsupported_not_scalar.
    rewrite app_assoc, <- Permutation_middle, <- app_assoc. by rewrite IH.
Qed.

(** C1. The three groups built by the loop are pairwise disjoint, every
    input name is in one of them and nothing else is, and every
    occurrence of a name in [labelNames] is placed exactly once: the
    three groups together are a rearrangement of [labelNames]. *)
Theorem classifier_partition (labelNames : list string) :
  let g := groups labelNames in
  (∀ n, n ∈ labelNames
        ↔ n ∈ names (labels g) ∨ n ∈ names (scalars g)
          ∨ n ∈ names (unsupported g))
  ∧ (∀ n, ¬ (n ∈ names (labels g) ∧ n ∈ names (scalars g)))
  ∧ (∀ n, ¬ (n ∈ names (labels g) ∧ n ∈ names (unsupported g)))
  ∧ (∀ n, ¬ (n ∈ names (scalars g) ∧ n ∈ names (unsupported g)))
  ∧ names (labels g) ++ names (scalars g) ++ names (unsupported g)
      ≡ₚ labelNames.
Proof.
  cbv zeta.
  rewrite labels_names, scalars_names, unsupported_names.
  split; [|split; [|split; [|split]]].
  - intros n. rewrite !list_elem_of_filter. split.
    + intros Hin. destruct (branch_cases n) as [H|[H|H]]; naive_solver.
    + by intros [[_ ?]|[[_ ?]|[_ ?]]].
  - intros n. rewrite !list_elem_of_filter. intros [[Hl _] [Hs _]].
    by apply (label_not_scalar n).
  - intros n. rewrite !list_elem_of_filter. intros [[Hl _] [Hu _]].
    by apply (label_not_unsupported n).
  - intros n. rewrite !list_elem_of_filter. intros [[Hs _] [Hu _]].
    by apply (scalar_not_unsupported n).
  - apply filter_three_way.
Qed.

(** C2. A name is in [labels] exactly when it is a name of
    [labelNames] whose label type is on the label allow-list; it is in
    [scalars] exactly when it is a name of [labelNames] whose label type
    is not on the label allow-list and whose schema type is on the scalar
    allow-list; it is in [unsupported] exactly when it is a name of
    [labelNames] for which neither holds.  A name of [labelNames] that
    neither lookup knows is in [unsupported] and in no other array.
    Each array is [labelNames] filtered by its condition. *)
Theorem classifier_branches (labelNames : list string) (n : string) :
  let g := groups labelNames in
  (n ∈ names (labels g)
   ↔ n ∈ labelNames ∧ includes VALID_LABEL_TYPES (labelTypes !! n) = true)
  ∧ (n ∈ names (scalars g)
     ↔ n ∈ labelNames
       ∧ includes VALID_LABEL_TYPES (labelTypes !! n) = false
       ∧ includes VALID_SCALAR_TYPES (fieldSchema !! n) = true)
  ∧ (n ∈ names (unsupported g)
     ↔ n ∈ labelNames
       ∧ includes VALID_LABEL_TYPES (labelTypes !! n) = false
       ∧ includes VALID_SCALAR_TYPES (fieldSchema !! n) = false)
  ∧ (n ∈ labelNames → labelTypes !! n = None → fieldSchema !! n = None →
     n ∈ names (unsupported g)
     ∧ (n ∉ names (labels g)) ∧ (n ∉ names (scalars g)))
  ∧ names (labels g) = filter label labelNames
  ∧ names (scalars g) = filter scalar labelNames
  ∧ names (unsupported g) = filter unsupp labelNames.
Proof.
  cbv zeta.
  rewrite labels_names, scalars_names, unsupported_names.
  rewrite !list_elem_of_filter.
  unfold is_label, is_scalar, is_unsupported.
  split; [|split; [|split; [|split; [|done]]]].
  - split; intros [? ?]; done.
  - split; [intros [[? ?] ?] | intros (? & ? & ?)]; done.
  - split; [intros [[? ?] ?] | intros (? & ? & ?)]; done.
  - intros Hin Hl Hs. rewrite Hl, Hs. cbn.
    split; [done|]. split; intros [H _]; [done|]. by destruct H.
Qed.

End Classifier.

(** The end-to-end example of the specification. *)
Example example_groups_value :
  example_groups
  = mkGroups [mkEntry "tags" (Some "Classification")]
             [mkEntry "confidence" None]
             [mkEntry "blob" None].
Proof. vm_compute. reflexivity. Qed.

Lemma classifier_branches_witness :
  "tags" ∈ names (labels example_groups)
  ∧ "confidence" ∈ names (scalars example_groups)
  ∧ "blob" ∈ names (unsupported example_groups)
  ∧ ("blob" ∉ names (labels example_groups))
  ∧ "other" ∈ names (unsupported
        (labelNameGroups ["Classification"] ["float"]
           example_labelTypes example_fieldSchema ["other"])).
Proof.
  split; [|split; [|split; [|split]]].
  - destruct (classifier_branches ["Classification"] ["float"]
                example_labelTypes example_fieldSchema
                ["tags"; "confidence"; "blob"] "tags") as (H & _).
    apply H. split; [by apply (bool_decide_unpack _) | vm_compute; reflexivity].
  - destruct (classifier_branches ["Classification"] ["float"]
                example_labelTypes example_fieldSchema
                ["tags"; "confidence"; "blob"] "confidence") as (_ & H & _).
    apply H. split; [by apply (bool_decide_unpack _) | split; vm_compute; reflexivity].
  - destruct (classifier_branches ["Classification"] ["float"]
                example_labelTypes example_fieldSchema
                ["tags"; "confidence"; "blob"] "blob") as (_ & _ & H & _).
    apply H. split; [by apply (bool_decide_unpack _) | split; vm_compute; reflexivity].
  - destruct (classifier_branches ["Classification"] ["float"]
                example_labelTypes example_fieldSchema
                ["tags"; "confidence"; "blob"] "blob") as (H & _).
    intros Hin. apply H in Hin as [_ Hin]. vm_compute in Hin. discriminate.
  - destruct (classifier_branches ["Classification"] ["float"]
                example_labelTypes example_fieldSchema
                ["other"] "other") as (_ & _ & _ & H & _).
    apply H; [by apply (bool_decide_unpack _) | vm_compute; reflexivity | vm_compute; reflexivity].
Defined.

Section Sort.
Context {A : Type} (ToString : A → string).

Local Abbreviation cmp := (SortCompare ToString).
Local Abbreviation le := (key_le ToString).

Lemma sort_insert_Permutation x l : sort_insert ToString x l ≡ₚ x :: l.
Proof.
  induction l as [|y l IH]; [done|]. cbn [sort_insert].
  destruct (cmp y x); try done.
  rewrite IH. apply Permutation_swap.
Qed.

Lemma sort_Permutation l : sort ToString l ≡ₚ l.
Proof.
  induction l as [|x l IH]; [done|]. unfold sort in *. cbn [foldr].
  by rewrite sort_insert_Permutation, IH.
Qed.

Lemma key_le_trans x y z : le x y → le y z → le x z.
Proof.
  unfold key_le, SortCompare.
  generalize (ToString x) (ToString y) (ToString z). intros a b c Hab Hbc.
  assert (∀ u v, String.compare u v ≠ Gt
                 → u = v ∨ OrderedTypeEx.String_as_OT.lt u v) as Hle.
  { intros u v Huv. destruct (String.compare u v) eqn:E; [| |done].
    - left. by apply OrderedTypeEx.String_as_OT.cmp_eq.
    - right. by apply OrderedTypeEx.String_as_OT.cmp_lt. }
  destruct (Hle _ _ Hab) as [->|Hlt1]; [done|].
  destruct (Hle _ _ Hbc) as [<-|Hlt2]; [done|].
  pose proof (OrderedTypeEx.String_as_OT.lt_trans _ _ _ Hlt1 Hlt2) as Hac.
  apply OrderedTypeEx.String_as_OT.cmp_lt in Hac.
  unfold OrderedTypeEx.String_as_OT.cmp in Hac. by rewrite Hac.
Qed.

Lemma key_le_flip x y : cmp y x ≠ Lt → le x y.
Proof.
  unfold key_le, SortCompare. rewrite (String.compare_antisym (ToString y)).
  by destruct (String.compare (ToString x) (ToString y)).
Qed.

Lemma sort_insert_sorted x l :
  StronglySorted le l → StronglySorted le (sort_insert ToString x l).
Proof.
  induction 1 as [|y l Hs IH Hall]; cbn [sort_insert].
  - by repeat constructor.
  - destruct (cmp y x) eqn:Hc.
    + assert (le x y) as Hxy by (apply key_le_flip; by rewrite Hc).
      constructor; [by constructor|]. constructor; [done|].
      eapply Forall_impl; [exact Hall|]. intros z. by apply key_le_trans.
    + constructor; [done|].
      rewrite sort_insert_Permutation. constructor; [|done].
      unfold key_le. by rewrite Hc.
    + assert (le x y) as Hxy by (apply key_le_flip; by rewrite Hc).
      constructor; [by constructor|]. constructor; [done|].
      eapply Forall_impl; [exact Hall|]. intros z. by apply key_le_trans.
Qed.

(** The sort does sort, by the string conversions of the elements. *)
Lemma sort_sorted l : StronglySorted le (sort ToString l).
Proof.
  induction l as [|x l IH]; [constructor|].
  unfold sort in *. cbn [foldr]. by apply sort_insert_sorted.
Qed.

(** When all elements convert to the same string, nothing moves. *)
Lemma sort_same_key l :
  (∀ x y, ToString x = ToString y) → sort ToString l = l.
Proof.
  intros Hkey. induction l as [|x l IH]; [done|].
  unfold sort in *. cbn [foldr]. rewrite IH.
  destruct l as [|y l']; [done|]. cbn [sort_insert]. unfold SortCompare.
  rewrite (Hkey y x).
  pose proof (String.compare_antisym (ToString x) (ToString x)) as Ha.
  destruct (String.compare (ToString x) (ToString x)); done.
Qed.

End Sort.

(** On strings themselves the sort orders by code units, and keeps
    equal keys in their order. *)
Example sort_strings :
  sort (λ s : string, s) ["pear"; "fig"; "apple"; "fig"]
  = ["apple"; "fig"; "fig"; "pear"].
Proof. reflexivity. Qed.

Example sort_stable :
  sort (λ p : string * nat, fst p) [("b", 1); ("a", 2); ("b", 3); ("a", 4)]
  = [("a", 2); ("a", 4); ("b", 1); ("b", 3)].
Proof. reflexivity. Qed.

(** [getDisplayOptions] keeps the entries in the order it received them. *)
Lemma getDisplayOptions_names values counts selected :
  opt_name <$> getDisplayOptions values counts selected = name <$> values.
Proof.
  unfold getDisplayOptions. rewrite sort_same_key by done.
  rewrite <- list_fmap_compose. done.
Qed.

(** C3. On the entries [b], [a] the options come out as [b], [a]: the
    result is not in ascending order of the names. *)
Theorem getDisplayOptions_not_sorted :
  getDisplayOptions [mkEntry "b" None; mkEntry "a" None] ∅ ∅
  = [mkDisplayOption "b" None Undefined false;
     mkDisplayOption "a" None Undefined false]
  ∧ ¬ sorted_by_name
        (getDisplayOptions [mkEntry "b" None; mkEntry "a" None] ∅ ∅).
Proof.
  split; [reflexivity|].
  intros Hs. apply StronglySorted_inv in Hs as [_ Hall].
  apply Forall_cons in Hall as [Hba _]. by apply Hba.
Qed.

(** Without the guard the handler throws on a detached reference. *)
Example unguarded_throws (V : Z) (h : SidebarHeight) :
  updateSidebarHeight_unguarded (mkLayoutEnv V None) h
  = (inl (TypeError "Cannot read properties of null"), h).
Proof. reflexivity. Qed.

(** C4. With the panel's element attached, a recompute sets the
    available height to the viewport height minus the panel's top
    offset, whatever the panel's own height and the height stored
    before; 800 and 100 give 700. *)
Theorem updateSidebarHeight_attached (V T H : Z) (old : SidebarHeight) :
  updateSidebarHeight (mkLayoutEnv V (Some (mkElement (mkDOMRect T H)))) old
    = (inr tt, Px (V - T))
  ∧ updateSidebarHeight
      (mkLayoutEnv 800 (Some (mkElement (mkDOMRect 100 500)))) old
    = (inr tt, Px 700).
Proof. split; reflexivity. Qed.

(** C5. With the panel's element not attached, a recompute returns
    normally and leaves the stored height as it was. *)
Theorem updateSidebarHeight_detached (V : Z) (old : SidebarHeight) :
  updateSidebarHeight (mkLayoutEnv V None) old = (inr tt, old).
Proof. reflexivity. Qed.

(** *** More on the classifier *)

Section ClassifierEntries.
Variables VALID_LABEL_TYPES VALID_SCALAR_TYPES : list string.
Variables labelTypes fieldSchema : gmap string string.

Local Abbreviation step :=
  (classify_step VALID_LABEL_TYPES VALID_SCALAR_TYPES labelTypes fieldSchema).
Local Abbreviation groups :=
  (SamplesContainer.labelNameGroups
     VALID_LABEL_TYPES VALID_SCALAR_TYPES labelTypes fieldSchema).
Local Abbreviation label := (is_label VALID_LABEL_TYPES labelTypes).
Local Abbreviation scalar :=
  (is_scalar VALID_LABEL_TYPES VALID_SCALAR_TYPES labelTypes fieldSchema).
Local Abbreviation unsupp :=
  (is_unsupported VALID_LABEL_TYPES VALID_SCALAR_TYPES labelTypes fieldSchema).

(** The [type] property of the entries: the declared label type in
    [labels], none in the other two arrays. *)
Lemma foldl_classify_types (ns : list string) (g : Groups) :
  (∀ e, e ∈ labels g → type e = labelTypes !! name e) →
  (∀ e, e ∈ scalars g → type e = None) →
  (∀ e, e ∈ unsupported g → type e = None) →
  (∀ e, e ∈ labels (foldl step g ns) → type e = labelTypes !! name e)
  ∧ (∀ e, e ∈ scalars (foldl step g ns) → type e = None)
  ∧ (∀ e, e ∈ unsupported (foldl step g ns) → type e = None).
Proof.
  revert g. induction ns as [|n ns IH]; intros g Hl Hs Hu; [done|].
  cbn [foldl]. apply IH; unfold classify_step;
    destruct (includes VALID_LABEL_TYPES (labelTypes !! n));
    try destruct (includes VALID_SCALAR_TYPES (fieldSchema !! n));
    cbn [labels scalars unsupported]; intros e;
    rewrite ?elem_of_app, ?list_elem_of_singleton;
    (intros [?| ->]; [auto | done]) || auto.
Qed.

Lemma includes_true (arr : list string) (v : option string) :
  includes arr v = true → ∃ s, v = Some s ∧ s ∈ arr.
Proof.
  destruct v as [s|]; [|done]. cbn. intros H%bool_decide_eq_true. eauto.
Qed.

(** X1. Every entry of [labels] carries its declared label type, which
    is on the label allow-list; an entry of [scalars] carries no type and
    its schema type is on the scalar allow-list; an entry of
    [unsupported] carries no type. *)
Theorem classifier_entry_types (names_in : list string) :
  let g :=
    labelNameGroups VALID_LABEL_TYPES VALID_SCALAR_TYPES labelTypes fieldSchema
      names_in in
  (∀ e, e ∈ labels g →
     ∃ s, type e = Some s ∧ labelTypes !! name e = Some s
          ∧ s ∈ VALID_LABEL_TYPES)
  ∧ (∀ e, e ∈ scalars g →
       type e = None
       ∧ ∃ s, fieldSchema !! name e = Some s ∧ s ∈ VALID_SCALAR_TYPES)
  ∧ (∀ e, e ∈ unsupported g → type e = None).
Proof.
  cbv zeta.
  destruct (foldl_classify_types names_in (mkGroups [] [] []))
    as (Hl & Hs & Hu); try (cbn; intros e He; by apply elem_of_nil in He).
  fold (groups names_in) in Hl, Hs, Hu.
  split; [|split].
  - intros e He. pose proof (Hl e He) as Ht.
    assert (name e ∈ filter label names_in) as Hn.
    { rewrite <- (labels_names VALID_LABEL_TYPES VALID_SCALAR_TYPES labelTypes fieldSchema). by apply list_elem_of_fmap_2. }
    apply list_elem_of_filter in Hn as [Hn _].
    apply includes_true in Hn as (s & Hs' & Hin).
    exists s. by rewrite Ht.
  - intros e He. split; [by apply Hs|].
    assert (name e ∈ filter scalar names_in) as Hn.
    { rewrite <- (scalars_names VALID_LABEL_TYPES VALID_SCALAR_TYPES labelTypes fieldSchema). by apply list_elem_of_fmap_2. }
    apply list_elem_of_filter in Hn as [[_ Hn] _].
    by apply includes_true in Hn.
  - done.
Qed.

(** X2. Each array lists its names in the order in which they occur in
    the input: it is the input filtered by the array's branch condition,
    and classifying a concatenation concatenates the arrays. *)
Theorem classifier_keeps_order (ns ms : list string) :
  names (labels (groups ns)) = filter label ns
  ∧ names (scalars (groups ns)) = filter scalar ns
  ∧ names (unsupported (groups ns)) = filter unsupp ns
  ∧ names (labels (groups (ns ++ ms)))
    = names (labels (groups ns)) ++ names (labels (groups ms))
  ∧ names (scalars (groups (ns ++ ms)))
    = names (scalars (groups ns)) ++ names (scalars (groups ms))
  ∧ names (unsupported (groups (ns ++ ms)))
    = names (unsupported (groups ns)) ++ names (unsupported (groups ms)).
Proof.
  rewrite !(labels_names VALID_LABEL_TYPES VALID_SCALAR_TYPES
              labelTypes fieldSchema),
    !(scalars_names VALID_LABEL_TYPES VALID_SCALAR_TYPES
        labelTypes fieldSchema),
    !(unsupported_names VALID_LABEL_TYPES VALID_SCALAR_TYPES
        labelTypes fieldSchema).
  by rewrite !filter_app.
Qed.

End ClassifierEntries.

(** *** The option lists *)

Lemma getDisplayOptions_map values counts sel :
  getDisplayOptions values counts sel
  = (λ e, mkDisplayOption (name e) (type e) (get_property counts (name e))
            (Boolean_property (get_property sel (name e)))) <$> values.
Proof. unfold getDisplayOptions. by rewrite sort_same_key. Qed.

Lemma getDisplayOptions_elem o values counts sel :
  o ∈ getDisplayOptions values counts sel →
  ∃ e, o = mkDisplayOption (name e) (type e) (get_property counts (name e))
             (Boolean_property (get_property sel (name e)))
       ∧ e ∈ values.
Proof. rewrite getDisplayOptions_map. apply list_elem_of_fmap. Qed.

Lemma Boolean_get_property (sel : gmap string bool) (k : string) :
  Boolean_property (get_property sel k)
  = match sel !! k with
    | Some b => b
    | None => bool_decide (k ∈ Object_prototype_members)
    end.
Proof.
  unfold get_property. destruct (sel !! k); [done|].
  by case_bool_decide.
Qed.

Lemma get_property_insert {V : Type} (o : gmap string V)
    (k k' : string) (v : V) :
  get_property (<[k:=v]> o) k'
  = if decide (k' = k) then Own v else get_property o k'.
Proof.
  unfold get_property. destruct (decide (k' = k)) as [->|Hne].
  - by rewrite lookup_insert_eq.
  - by rewrite lookup_insert_ne.
Qed.

(** X3. [getDisplayOptions] returns one option per entry, at the
    entry's position, with the entry's name and type.  Its count is what
    [counts[name]] reads: the own value when the name is a key, the
    inherited member when it is not a key but names a member of
    [Object.prototype], undefined otherwise.  Its [selected] is the own
    value when the name is a key of [selected]; when it is not, it is
    [true] for a name of a member of [Object.prototype] and [false] for
    any other name. *)
Theorem getDisplayOptions_positions values counts sel :
  length (getDisplayOptions values counts sel) = length values
  ∧ ∀ (i : nat) e, values !! i = Some e →
      ∃ o, getDisplayOptions values counts sel !! i = Some o
           ∧ opt_name o = name e
           ∧ opt_type o = type e
           ∧ count o
             = match counts !! name e with
               | Some c => Own c
               | None =>
                   if bool_decide (name e ∈ Object_prototype_members)
                   then Inherited (name e) else Undefined
               end
           ∧ selected o
             = match sel !! name e with
               | Some b => b
               | None => bool_decide (name e ∈ Object_prototype_members)
               end.
Proof.
  rewrite getDisplayOptions_map. split; [by rewrite length_fmap|].
  intros i e He. rewrite list_lookup_fmap, He. cbn.
  eexists. split; [done|]. cbn. by rewrite Boolean_get_property.
Qed.

(** A tag or field called [constructor] is shown as selected, with the
    inherited function as its count, though no map has it as a key. *)
Example getDisplayOptions_constructor :
  getDisplayOptions [mkEntry "constructor" None; mkEntry "cat" None] ∅ ∅
  = [mkDisplayOption "constructor" None (Inherited "constructor") true;
     mkDisplayOption "cat" None Undefined false].
Proof. reflexivity. Qed.

Lemma handleSetDisplayOption_run entry sel :
  handleSetDisplayOption entry sel
  = (inr tt, <[opt_name entry := selected entry]> sel).
Proof. reflexivity. Qed.

(** X4. After [handleSetDisplayOption] for an entry, the option lists
    built from the new selection show the entry's [selected] flag on the
    options of that name; every other option, and every name, type and
    count, is as before. *)
Theorem handleSetDisplayOption_shown entry values counts sel :
  getDisplayOptions values counts (snd (handleSetDisplayOption entry sel))
  = (λ o, if decide (opt_name o = opt_name entry)
          then mkDisplayOption (opt_name o) (opt_type o) (count o)
                 (selected entry)
          else o)
      <$> getDisplayOptions values counts sel.
Proof.
  rewrite handleSetDisplayOption_run. cbn [snd].
  rewrite !getDisplayOptions_map, <- list_fmap_compose.
  apply list_fmap_ext. intros i e _. cbn.
  rewrite get_property_insert.
  by destruct (decide (name e = opt_name entry)).
Qed.

(** X5. Two calls of the handler for the same name leave what the
    second one set; calls for different names can be swapped; a call
    that sets what the map already holds changes nothing. *)
Theorem handleSetDisplayOption_algebra (e1 e2 : DisplayOption)
    (sel : gmap string bool) :
  (opt_name e1 = opt_name e2 →
     snd ((handleSetDisplayOption e1 ;; handleSetDisplayOption e2) sel)
     = snd (handleSetDisplayOption e2 sel))
  ∧ (opt_name e1 ≠ opt_name e2 →
     snd ((handleSetDisplayOption e1 ;; handleSetDisplayOption e2) sel)
     = snd ((handleSetDisplayOption e2 ;; handleSetDisplayOption e1) sel))
  ∧ (sel !! opt_name e1 = Some (selected e1) →
     snd (handleSetDisplayOption e1 sel) = sel).
Proof.
  unfold bind. rewrite !handleSetDisplayOption_run. cbn [snd].
  split; [|split].
  - intros ->. apply insert_insert_eq.
  - intros Hne. by apply insert_insert_ne.
  - intros Hs. by apply insert_id.
Qed.

(** X6. The sidebar gets the tags in the order of [tagNames], without
    a type; the names of its [labels], [scalars] and [unsupported] lists
    together are a rearrangement of [labelNames].  Every count is the
    property read under the option's name, in [tagSampleCounts] for the
    tags and in [labelSampleCounts] for the three other lists; every
    [selected] is [Boolean] of the property read under the name, in
    [activeTags] for the tags, in [activeOther] for the scalars, and in
    [activeLabels] for both the labels and the unsupported fields. *)
Theorem sidebar_option_lists (VALID_LABEL_TYPES VALID_SCALAR_TYPES : list string)
    (r : Recoil) (p : DisplayProps) :
  let props := DisplayOptionsWrapper VALID_LABEL_TYPES VALID_SCALAR_TYPES r p in
  opt_name <$> sb_tags props = tagNames r
  ∧ (opt_name <$> sb_labels props) ++ (opt_name <$> sb_scalars props)
      ++ (opt_name <$> sb_unsupported props) ≡ₚ labelNames r
  ∧ (∀ o, o ∈ sb_tags props →
       opt_type o = None
       ∧ count o = get_property (tagSampleCounts r) (opt_name o)
       ∧ selected o
         = Boolean_property (get_property (activeTags p) (opt_name o)))
  ∧ (∀ o, o ∈ sb_labels props →
       count o = get_property (labelSampleCounts r) (opt_name o)
       ∧ selected o
         = Boolean_property (get_property (activeLabels p) (opt_name o)))
  ∧ (∀ o, o ∈ sb_scalars props →
       count o = get_property (labelSampleCounts r) (opt_name o)
       ∧ selected o
         = Boolean_property (get_property (activeOther p) (opt_name o)))
  ∧ (∀ o, o ∈ sb_unsupported props →
       count o = get_property (labelSampleCounts r) (opt_name o)
       ∧ selected o
         = Boolean_property (get_property (activeLabels p) (opt_name o))).
Proof.
  cbv zeta. unfold DisplayOptionsWrapper. cbn [sb_tags sb_labels sb_scalars
    sb_unsupported].
  split; [|split; [|split; [|split; [|split]]]].
  - rewrite getDisplayOptions_names, <- list_fmap_compose.
    apply list_fmap_id.
  - rewrite !getDisplayOptions_names.
    pose proof (labels_names VALID_LABEL_TYPES VALID_SCALAR_TYPES
                  (labelTypes r) (fieldSchema r) (labelNames r)) as Hl.
    pose proof (scalars_names VALID_LABEL_TYPES VALID_SCALAR_TYPES
                  (labelTypes r) (fieldSchema r) (labelNames r)) as Hs.
    pose proof (unsupported_names VALID_LABEL_TYPES VALID_SCALAR_TYPES
                  (labelTypes r) (fieldSchema r) (labelNames r)) as Hu.
    unfold names in Hl, Hs, Hu. rewrite Hl, Hs, Hu.
    apply filter_three_way.
  - intros o (e & -> & (t & -> & _)%list_elem_of_fmap)%getDisplayOptions_elem.
    done.
  - by intros o (e & -> & _)%getDisplayOptions_elem.
  - by intros o (e & -> & _)%getDisplayOptions_elem.
  - by intros o (e & -> & _)%getDisplayOptions_elem.
Qed.

(** *** Runs of recomputes *)

Lemma updateSidebarHeight_step env (h : SidebarHeight) :
  updateSidebarHeight env h
  = (inr tt,
     match sidebarRef_current env with
     | Some el => Px (innerHeight env - rect_top (getBoundingClientRect el))
     | None => h
     end).
Proof.
  unfold updateSidebarHeight. by destruct (sidebarRef_current env).
Qed.

Lemma updateSidebarHeight_run_app envs1 envs2 (h : SidebarHeight) :
  fst (updateSidebarHeight_run envs1 h) = inr tt
  ∧ updateSidebarHeight_run (envs1 ++ envs2) h
    = updateSidebarHeight_run envs2 (snd (updateSidebarHeight_run envs1 h)).
Proof.
  revert h. induction envs1 as [|env envs1 IH]; intros h; [done|].
  cbn [app updateSidebarHeight_run]. unfold bind.
  rewrite updateSidebarHeight_step. apply IH.
Qed.

(** X7. A run of recomputes never throws.  A height that was measured
    once stays a number; when the reference is detached at every event
    of the run the stored height is unchanged; and after a run that ends
    with the element attached the height is the viewport height minus
    the top offset read at that last event, whatever came before. *)
Theorem updateSidebarHeight_run_behaviour
    (envs : list LayoutEnv) (old : SidebarHeight) :
  fst (updateSidebarHeight_run envs old) = inr tt
  ∧ (old ≠ Unset → snd (updateSidebarHeight_run envs old) ≠ Unset)
  ∧ (Forall (λ env, sidebarRef_current env = None) envs →
     snd (updateSidebarHeight_run envs old) = old)
  ∧ (∀ V T H,
       snd (updateSidebarHeight_run
              (envs ++ [mkLayoutEnv V (Some (mkElement (mkDOMRect T H)))]) old)
       = Px (V - T)).
Proof.
  split; [|split; [|split]].
  - apply (updateSidebarHeight_run_app envs []).
  - revert old. induction envs as [|env envs IH]; intros old Hold; [done|].
    cbn [updateSidebarHeight_run]. unfold bind.
    rewrite updateSidebarHeight_step. apply IH.
    by destruct (sidebarRef_current env).
  - revert old. induction envs as [|env envs IH]; intros old Hall; [done|].
    apply Forall_cons in Hall as [Hnone Hall].
    cbn [updateSidebarHeight_run]. unfold bind.
    rewrite updateSidebarHeight_step, Hnone. by apply IH.
  - intros V T H.
    destruct (updateSidebarHeight_run_app envs
                [mkLayoutEnv V (Some (mkElement (mkDOMRect T H)))] old)
      as [_ ->].
    reflexivity.
Qed.

End SamplesContainerFacts.

(** ** The dataset route *)

Module DatasetRouteFacts.
Import DatasetRoute.

Section Route.
Variables DatasetData DatasetState : Type.
Variable transformDataset : DatasetData → DatasetState.

Local Abbreviation pass := (render_pass DatasetData DatasetState transformDataset).
Local Abbreviation passes :=
  (render_passes DatasetData DatasetState transformDataset).
Local Abbreviation publish d store :=
  (mkStore (published store ++ [transformDataset (content d)])).

(** Committing the effect of [Dataset]: the hook memory becomes
    [[dataset]], and [update] runs unless it was [[dataset]] already. *)
Lemma commitEffect_update fiber (o : positive) (x : DatasetState) store :
  commitEffect DatasetState fiber (mkEffect [o] (update DatasetState x)) store
  = (inr (Some [o]),
     if bool_decide (fiber = Some [o]) then store
     else mkStore (published store ++ [x])).
Proof.
  destruct fiber as [prev|]; cbn; [|done].
  unfold areHookInputsEqual.
  destruct (decide (prev = [o])) as [->|Hne].
  - by rewrite !bool_decide_eq_true_2.
  - by rewrite !bool_decide_eq_false_2 by congruence.
Qed.

Lemma render_pass_some pathname (d : Obj DatasetData) name fiber store :
  ∃ el,
    pass pathname (Some d) name fiber store
    = (inr el, Some [oid d],
       if bool_decide (fiber = Some [oid d]) then store else publish d store).
Proof.
  unfold render_pass, Dataset. cbv zeta.
  destruct name as [n|]; [destruct (truthy_string n)|];
    rewrite commitEffect_update; eauto.
Qed.

Lemma render_passes_same pathname (d : Obj DatasetData) names store :
  passes pathname d names (Some [oid d]) store = (Some [oid d], store).
Proof.
  induction names as [|n names IH]; [done|]. cbn [render_passes].
  destruct (render_pass_some pathname d n (Some [oid d]) store) as [el ->].
  by rewrite bool_decide_eq_true_2.
Qed.

(** A different response object is published again. *)
Lemma render_pass_new_object pathname (d d' : Obj DatasetData) name store :
  oid d' ≠ oid d →
  snd (pass pathname (Some d') name (Some [oid d]) store) = publish d' store.
Proof.
  intros Hne.
  destruct (render_pass_some pathname d' name (Some [oid d]) store) as [el ->].
  rewrite bool_decide_eq_false_2 by congruence. done.
Qed.

(** C6. On a null [dataset] the component throws [NotFoundError] with
    the path, and the render pass ends in that exception: the effect is
    not committed, nothing is published, and the instance that threw is
    unmounted. *)
Theorem not_found_propagates pathname name fiber store :
  Dataset DatasetData DatasetState transformDataset pathname None name
    = inl (NotFoundError pathname)
  ∧ pass pathname None name fiber store
    = (inl (NotFoundError pathname), None, store).
Proof. split; reflexivity. Qed.

(** C7. Rendering the same response object again publishes nothing: a
    pass over the object committed by the pass before leaves the hook
    memory and the store as they are; any number of passes over one
    object, from any state of the instance, publish at most once, and
    exactly once from a fresh mount. *)
Theorem publish_once_per_dataset pathname (d : Obj DatasetData) fiber store :
  (∀ n1 n2 r1 fiber1 store1,
     pass pathname (Some d) n1 fiber store = (r1, fiber1, store1) →
     ∃ r2, pass pathname (Some d) n2 fiber1 store1 = (r2, fiber1, store1))
  ∧ (∀ names,
       (updates DatasetState (snd (passes pathname d names fiber store))
        ≤ S (updates DatasetState store))%nat)
  ∧ (∀ n names,
       snd (passes pathname d (n :: names) None store) = publish d store).
Proof.
  split; [|split].
  - intros n1 n2 r1 fiber1 store1 H1.
    destruct (render_pass_some pathname d n1 fiber store) as [el1 He1].
    rewrite He1 in H1. injection H1 as <- <- <-.
    destruct (render_pass_some pathname d n2 (Some [oid d])
                (if bool_decide (fiber = Some [oid d]) then store
                 else publish d store))
      as [el2 ->].
    rewrite bool_decide_eq_true_2 by done. eauto.
  - intros [|n names]; [cbn; lia|]. cbn [render_passes].
    destruct (render_pass_some pathname d n fiber store) as [el ->].
    rewrite render_passes_same. cbn [snd].
    case_bool_decide; unfold updates; cbn [published];
      rewrite ?length_app; cbn; lia.
  - intros n names. cbn [render_passes].
    destruct (render_pass_some pathname d n None store) as [el ->].
    by rewrite render_passes_same.
Qed.

End Route.

Section Sequences.
Variables DatasetData DatasetState : Type.
Variable transformDataset : DatasetData → DatasetState.

Local Abbreviation pass := (render_pass DatasetData DatasetState transformDataset).
Local Abbreviation sequence :=
  (render_sequence DatasetData DatasetState transformDataset).
Local Abbreviation publish d store :=
  (mkStore (published store ++ [transformDataset (content d)])).

Lemma render_sequence_changes pathname ps prev (store : Store DatasetState) :
  snd (sequence pathname ps (fiber_of prev) store)
  = mkStore (published store
               ++ ((λ d, transformDataset (content d))
                     <$> changes DatasetData prev (ps.*1))).
Proof.
  revert prev store. induction ps as [|[d n] ps IH]; intros prev store.
  - cbn. rewrite app_nil_r. by destruct store.
  - cbn [render_sequence fmap list_fmap fst changes].
    destruct (render_pass_some DatasetData DatasetState transformDataset
                pathname d n (fiber_of prev) store) as [el ->].
    specialize (IH (Some (oid d))). cbn [fiber_of fmap option_fmap option_map] in IH.
    rewrite IH. clear IH.
    destruct (decide (prev = Some (oid d))) as [->|Hne].
    + by rewrite bool_decide_eq_true_2.
    + rewrite bool_decide_eq_false_2.
      * cbn [published]. by rewrite <- app_assoc.
      * destruct prev; cbn; congruence.
Qed.

(** X8. On a non-null [dataset] the first pass of an instance publishes
    the transformed dataset whatever [datasetName] is, also when the
    component returns [null]; it returns [<DatasetComponent />] exactly
    when the name is a non-empty string. *)
Theorem dataset_published_whatever_name pathname (d : Obj DatasetData)
    (name : option string) (store : Store DatasetState) :
  ∃ el,
    pass pathname (Some d) name None store
    = (inr el, Some [oid d], publish d store)
    ∧ (el = DatasetComponent ↔ ∃ n, name = Some n ∧ n ≠ "").
Proof.
  unfold render_pass, Dataset. cbv zeta.
  destruct name as [n|].
  - destruct n as [|a n'] eqn:Hn; cbn.
    + exists Null. split; [done|]. split; [done|]. by intros (? & [= <-] & ?).
    + exists DatasetComponent. split; [done|]. split; [|done].
      intros _. by eexists.
  - exists Null. cbn. split; [done|]. split; [done|]. by intros (? & ? & ?).
Qed.

(** X9. Over any sequence of passes of a fresh instance, the store
    receives one update for every object whose identity differs from
    that of the object rendered just before it, in order: an object that
    comes back after another one is published again. *)
Theorem render_sequence_publishes_changes pathname
    (ps : list (Obj DatasetData * option string)) (store : Store DatasetState) :
  snd (sequence pathname ps None store)
  = mkStore (published store
               ++ ((λ d, transformDataset (content d))
                     <$> changes DatasetData None (ps.*1))).
Proof. apply (render_sequence_changes pathname ps None). Qed.

(** X18. A pass that ends in not-found discards the hook memory: when
    the response object that was committed last before the throw is
    rendered again after it, the object is published again. *)
Theorem republished_after_not_found pathname (d : Obj DatasetData)
    (n2 n3 : option string) (store : Store DatasetState) :
  let '(r2, f2, s2) := pass pathname None n2 (Some [oid d]) store in
  r2 = inl (NotFoundError pathname)
  ∧ s2 = store
  ∧ ∃ el, pass pathname (Some d) n3 f2 s2
          = (inr el, Some [oid d], publish d store).
Proof.
  cbn. split; [done|]. split; [done|].
  destruct (render_pass_some DatasetData DatasetState transformDataset
              pathname d n3 None store) as [el ->].
  eauto.
Qed.

End Sequences.

(** An object, then a null dataset, then the same object: published
    twice. *)
Example render_after_not_found :
  let '(_, f1, s1) :=
    render_pass nat nat (λ n, n) "/datasets/a" (Some (mkObj 1 110)) (Some "a")
      None (mkStore []) in
  let '(_, f2, s2) :=
    render_pass nat nat (λ n, n) "/datasets/a" None (Some "a") f1 s1 in
  published
    (snd (render_pass nat nat (λ n, n) "/datasets/a" (Some (mkObj 1 110))
            (Some "a") f2 s2))
  = [110; 110].
Proof. reflexivity. Qed.

(** Three passes over the objects 1, 2, 1 publish three times; three
    passes over 1, 1, 2 publish twice. *)
Example render_sequence_aba :
  published
    (snd (render_sequence nat nat (λ n, n) "/datasets/a"
            [(mkObj 1 10, Some "a"); (mkObj 2 20, Some "a");
             (mkObj 1 10, Some "a")]
            None (mkStore [])))
  = [10; 20; 10]
  ∧ published
      (snd (render_sequence nat nat (λ n, n) "/datasets/a"
              [(mkObj 1 10, Some "a"); (mkObj 1 10, None);
               (mkObj 2 20, Some "a")]
              None (mkStore [])))
    = [10; 20].
Proof. split; reflexivity. Qed.

End DatasetRouteFacts.

(** ** The Teams form *)

Module TeamsFacts.
Import Teams.

Local Open Scope Z_scope.

Lemma submit_settled_failed (o : FetchOutcome) (st : State) :
  failed o →
  submit_settled o st
  = (inr tt,
     mkState (formState st) "Something went wrong" (teams st)
       (appTeamsIsOpen st) (network st) (timers st)).
Proof.
  destruct o as [|status json_ok]; cbn; [done|]. intros Hne.
  unfold submit_settled, catch, bind, settle, ret, check_status. cbn.
  destruct (Z.eqb_spec status 200) as [->|_]; [done|]. reflexivity.
Qed.

Lemma submit_failed (now : Z) (o : FetchOutcome) (st : State) :
  failed o →
  submit now o st
  = (inr tt,
     mkState (formState st) "Something went wrong" (teams st)
       (appTeamsIsOpen st) (network st ++ [submission now (formState st)])
       (timers st)).
Proof.
  intros Hf. unfold submit, bind at 1. cbn.
  by rewrite submit_settled_failed.
Qed.

(** The [disabled] expression, read as a boolean. *)
Lemma truthy_length (s : string) :
  truthy_number (str_length s) = truthy_string s.
Proof. by destruct s. Qed.

Lemma truthy_string_true (s : string) : truthy_string s = true ↔ s ≠ "".
Proof. destruct s; cbn; split; done. Qed.

Lemma js_and_truthy (a b : Z) :
  truthy_number (js_and a b) = truthy_number a && truthy_number b.
Proof. unfold js_and. by destruct (truthy_number a) eqn:Ha. Qed.

Lemma disabled_spec (fs : FormState) (t : TeamsAtom) :
  disabled fs t
  = negb (truthy_string (email fs) && truthy_string (firstname fs)
          && truthy_string (lastname fs))
    || submitted t.
Proof. unfold disabled. by rewrite !js_and_truthy, !truthy_length. Qed.

(** C8. With an empty [firstname] the button is disabled whatever the
    other five fields and the [teams] atom hold; and whenever the button
    is enabled, [firstname], [lastname] and [email] are all non-empty. *)
Theorem disabled_unless_required_fields :
  (∀ e l c r d t, disabled (mkFormState e "" l c r d) t = true)
  ∧ (∀ fs t, disabled fs t = false →
       firstname fs ≠ "" ∧ lastname fs ≠ "" ∧ email fs ≠ "").
Proof.
  split.
  - intros e l c r d t. rewrite disabled_spec. cbn.
    by rewrite andb_false_r.
  - intros fs t. rewrite disabled_spec. intros Hd.
    apply orb_false_iff in Hd as [Hd _].
    apply negb_false_iff in Hd.
    apply andb_true_iff in Hd as [Hd Hl].
    apply andb_true_iff in Hd as [He Hf].
    by rewrite <- !truthy_string_true.
Qed.

(** The button is enabled on a filled form that was not yet submitted. *)
Example enabled_example :
  disabled (mkFormState "a@b.c" "Ada" "Lovelace" "" "" "")
           (mkTeamsAtom false [])
  = false.
Proof. reflexivity. Qed.

(** C9. When the marketing request is rejected or answered with a status
    other than 200, [submit] ends normally with the label
    ["Something went wrong"]; the submission is the only request sent (no
    second attempt, no call of the tracking endpoint), the [teams] atom is
    as before and nothing is scheduled.  The promise chain alone, from
    whatever state it finds when the request settles, sends and schedules
    nothing. *)
Theorem failed_submission_handling
    (now : Z) (o : FetchOutcome) (st : State) :
  failed o →
  let r := submit now o st in
  let r' := submit_settled o st in
  fst r = inr tt
  ∧ submitText (snd r) = "Something went wrong"
  ∧ network (snd r) = network st ++ [submission now (formState st)]
  ∧ teams (snd r) = teams st
  ∧ timers (snd r) = timers st
  ∧ fst r' = inr tt
  ∧ submitText (snd r') = "Something went wrong"
  ∧ network (snd r') = network st
  ∧ teams (snd r') = teams st
  ∧ timers (snd r') = timers st.
Proof.
  intros Hf. cbv zeta. by rewrite submit_failed, submit_settled_failed.
Qed.

Lemma failed_submission_handling_witness :
  failed (Response 500 true)
  ∧ submitText (snd (submit 1700000000000 (Response 500 true) example_state))
    = "Something went wrong".
Proof.
  split; [cbn; lia|].
  apply (failed_submission_handling 1700000000000 (Response 500 true)
           example_state).
  cbn. lia.
Defined.

(** C10. On a failed submission the promise chain changes the button
    label and nothing else; over the whole of [submit] the form fields,
    the [teams] atom and the open flag are as they were. *)
Theorem failed_submission_frame
    (now : Z) (o : FetchOutcome) (st : State) :
  failed o →
  snd (submit_settled o st)
  = mkState (formState st) "Something went wrong" (teams st)
      (appTeamsIsOpen st) (network st) (timers st)
  ∧ formState (snd (submit now o st)) = formState st
  ∧ teams (snd (submit now o st)) = teams st
  ∧ appTeamsIsOpen (snd (submit now o st)) = appTeamsIsOpen st.
Proof.
  intros Hf. by rewrite submit_settled_failed, submit_failed.
Qed.

Lemma failed_submission_frame_witness :
  failed NetworkFailure
  ∧ formState (snd (submit 1700000000000 NetworkFailure example_state))
    = formState example_state.
Proof.
  split; [exact I|].
  apply (failed_submission_frame 1700000000000 NetworkFailure example_state).
  exact I.
Defined.

(** For comparison, the success path does all four things. *)
Example submit_success :
  snd (submit 1700000000000 (Response 200 true) example_state)
  = mkState (formState example_state) "Submitted. Thank you!"
      (mkTeamsAtom true []) true
      [submission 1700000000000 (formState example_state);
       mkRequest "POST" "/teams?submitted=true" EmptyObject]
      [(2000, SetOpenFalse)].
Proof. reflexivity. Qed.

(** *** The success path, a body that is not JSON, clicks in flight *)

Lemma submit_settled_success (st : State) :
  submit_settled (Response 200 true) st
  = (inr tt,
     mkState (formState st) "Submitted. Thank you!"
       (mkTeamsAtom true (others (teams st))) (appTeamsIsOpen st)
       (network st ++ [mkRequest "POST" "/teams?submitted=true" EmptyObject])
       (timers st ++ [(2000, SetOpenFalse)])).
Proof. reflexivity. Qed.

Lemma run_callbacks_closes (cbs : list Callback) (st : State) :
  cbs ≠ [] →
  run_callbacks cbs st
  = (inr tt,
     mkState (formState st) (submitText st) (teams st) false
       (network st) (timers st)).
Proof.
  revert st. induction cbs as [|[] cbs IH]; intros st Hne; [done|].
  cbn [run_callbacks]. unfold bind. cbn.
  destruct cbs as [|cb cbs']; [done|]. by rewrite IH.
Qed.

(** X10. After a submission that the endpoint answers with status 200
    and a JSON body: the label thanks the user, [teams.submitted] is set
    and the other properties of the atom are kept, the tracking request
    follows the submission as the only other request, the form is still
    open and one close is scheduled 2000 ms ahead; the button is then
    disabled whatever the form holds; and once the timers fall due the
    form is closed and no timer is pending. *)
Theorem successful_submission (now : Z) (st : State) :
  let st1 := snd (submit now (Response 200 true) st) in
  let st2 := snd (fire_timers st1) in
  fst (submit now (Response 200 true) st) = inr tt
  ∧ submitText st1 = "Submitted. Thank you!"
  ∧ teams st1 = mkTeamsAtom true (others (teams st))
  ∧ formState st1 = formState st
  ∧ appTeamsIsOpen st1 = appTeamsIsOpen st
  ∧ network st1
    = network st ++ [submission now (formState st);
                     mkRequest "POST" "/teams?submitted=true" EmptyObject]
  ∧ timers st1 = timers st ++ [(2000, SetOpenFalse)]
  ∧ (∀ fs, disabled fs (teams st1) = true)
  ∧ appTeamsIsOpen st2 = false
  ∧ timers st2 = []
  ∧ teams st2 = teams st1.
Proof.
  cbv zeta. unfold submit, bind at 1. cbn [submit_begin].
  unfold bind at 1. cbn [setSubmitText modify gets].
  unfold bind at 1. cbn. rewrite <- !app_assoc. cbn.
  repeat (split; [reflexivity|]).
  split; [intros fs; rewrite disabled_spec; apply orb_true_r|].
  unfold fire_timers, bind, gets, modify. cbn [fst snd timers].
  rewrite fmap_app. cbn [fmap list_fmap snd].
  rewrite run_callbacks_closes; [done|].
  by destruct (timers st).*2.
Qed.

(** X11. A response whose body is not JSON is handled as a failure,
    whatever its status, 200 included: [submit] ends normally with the
    label ["Something went wrong"], the user is not marked as submitted,
    no tracking request is sent and no close is scheduled. *)
Theorem unparsable_body_is_failure (now status : Z) (st : State) :
  submit now (Response status false) st
  = (inr tt,
     mkState (formState st) "Something went wrong" (teams st)
       (appTeamsIsOpen st) (network st ++ [submission now (formState st)])
       (timers st)).
Proof.
  unfold submit, bind at 1. cbn.
  unfold submit_settled, catch, bind, settle, ret, check_status. cbn.
  by destruct (status =? 200).
Qed.

(** X12. Starting a submission sets the label to ["Submitting..."] and
    sends one request, and it changes nothing that the button's
    [disabled] reads: a second click while the first request is in
    flight sends the form a second time. *)
Theorem submit_in_flight_not_disabled (now1 now2 : Z) (st : State) :
  let st1 := snd (submit_begin now1 st) in
  let st2 := snd (submit_begin now2 st1) in
  submitText st1 = "Submitting..."
  ∧ disabled (formState st1) (teams st1) = disabled (formState st) (teams st)
  ∧ network st1 = network st ++ [submission now1 (formState st)]
  ∧ network st2
    = network st ++ [submission now1 (formState st);
                     submission now2 (formState st)].
Proof.
  cbv zeta. unfold submit_begin, bind, gets. cbn.
  by rewrite <- app_assoc.
Qed.

(** *** The inputs *)

Lemma field_with_field (name name' value : string) (fs : FormState) :
  name ∈ field_names →
  field name' (with_field name value fs)
  = if decide (name' = name) then Some value else field name' fs.
Proof.
  unfold field_names. rewrite !elem_of_cons, elem_of_nil.
  intros [->|[->|[->|[->|[->|[->|[]]]]]]];
    (destruct (decide _) as [->|Hne]; [reflexivity|]);
    unfold field, with_field; cbn;
    repeat match goal with
           | |- context [String.eqb name' ?s] =>
               destruct (String.eqb_spec name' s) as [->|_]; [done|]
           end;
    done.
Qed.

(** X13. A change event on one of the six inputs stores the typed value
    under that field, leaves the five other fields as they are, and
    touches nothing else of the state. *)
Theorem change_sets_one_field (name value : string) (st : State) :
  name ∈ field_names →
  let st' := snd (change name value st) in
  fst (change name value st) = inr tt
  ∧ field name (formState st') = Some value
  ∧ (∀ name', name' ≠ name →
       field name' (formState st') = field name' (formState st))
  ∧ submitText st' = submitText st
  ∧ teams st' = teams st
  ∧ appTeamsIsOpen st' = appTeamsIsOpen st
  ∧ network st' = network st
  ∧ timers st' = timers st.
Proof.
  intros Hin. cbv zeta. cbn. split; [done|]. split; [|split; [|done]].
  - rewrite field_with_field by done. by rewrite decide_True.
  - intros name' Hne. rewrite field_with_field by done.
    by rewrite decide_False.
Qed.

Lemma change_sets_one_field_witness :
  "email" ∈ field_names
  ∧ field "email" (formState (snd (change "email" "a@b.c" example_state)))
    = Some "a@b.c".
Proof.
  split; [unfold field_names; set_solver|].
  destruct (change_sets_one_field "email" "a@b.c" example_state)
    as (_ & H & _); [unfold field_names; set_solver | exact H].
Defined.

(** X14. Two handlers created by the same render both spread the form
    state of that render: when they run one after the other, for
    different fields, the value typed first is lost. *)
Theorem setFormValue_stale_render (name1 name2 v1 v2 : string) (st : State) :
  name1 ∈ field_names → name2 ∈ field_names → name1 ≠ name2 →
  let fs := formState st in
  let st' := snd ((setFormValue fs name1 v1 ;; setFormValue fs name2 v2) st) in
  field name2 (formState st') = Some v2
  ∧ field name1 (formState st') = field name1 (formState st).
Proof.
  intros H1 H2 Hne. cbv zeta. cbn.
  rewrite !field_with_field by done.
  rewrite decide_True by done. by rewrite decide_False.
Qed.

Lemma setFormValue_stale_render_witness :
  "email" ∈ field_names ∧ "role" ∈ field_names ∧ "email" ≠ "role"
  ∧ field "email"
      (formState
         (snd ((setFormValue (formState example_state) "email" "x@y.z" ;;
                setFormValue (formState example_state) "role" "dev")
                 example_state)))
    = Some "a@b.c".
Proof.
  split; [unfold field_names; set_solver|].
  split; [unfold field_names; set_solver|].
  split; [done|].
  destruct (setFormValue_stale_render "email" "role" "x@y.z" "dev"
              example_state) as (_ & H);
    [unfold field_names; set_solver | unfold field_names; set_solver
    | done | exact H].
Defined.

(** X15. After the three required inputs were changed one after the
    other, the button is enabled exactly when the three typed values are
    all non-empty and [teams.submitted] is not set; what the three other
    fields hold plays no part. *)
Theorem required_inputs_enable (e f l : string) (st : State) :
  let st' :=
    snd ((change "email" e ;; change "firstname" f ;; change "lastname" l) st)
  in
  disabled (formState st') (teams st')
  = negb (truthy_string e && truthy_string f && truthy_string l)
    || submitted (teams st).
Proof. cbv zeta. by rewrite disabled_spec. Qed.

End TeamsFacts.

(** ** The dataset container *)

Module DatasetContainerFacts.
Import DatasetContainer.

Lemma toggle_elem token (a : bool) (cl : gset string) (c : string) :
  c ∈ toggle token a cl ↔ (if decide (c = token) then a = true else c ∈ cl).
Proof.
  unfold toggle. destruct a.
  - rewrite elem_of_union, elem_of_singleton. case_decide; intuition.
  - rewrite elem_of_difference, elem_of_singleton.
    case_decide; intuition congruence.
Qed.

(** Toggling with a forced value forgets earlier toggles of the token. *)
Lemma toggle_toggle token (a b : bool) (cl : gset string) :
  toggle token a (toggle token b cl) = toggle token a cl.
Proof.
  apply set_eq. intros c.
  rewrite (toggle_elem token a (toggle token b cl)), (toggle_elem token a cl).
  destruct (decide (c = token)) as [->|Hne]; [done|].
  rewrite toggle_elem. by rewrite decide_False.
Qed.

Lemma with_modal_twice a b doc :
  with_modal a (with_modal b doc) = with_modal a doc.
Proof.
  unfold with_modal. cbn. rewrite toggle_toggle. f_equal.
  destruct (modal_classList doc) as [m|]; [|done]. cbn.
  by rewrite toggle_toggle.
Qed.

Lemma commit_modify {D : Type} `{EqDecision D} (prev : option D) (next : D)
    (f : World → World) (w : World) :
  commit prev next (modify f) w
  = (inr (Some next), if bool_decide (prev = Some next) then w else f w).
Proof.
  unfold commit. destruct prev as [p|]; [|done].
  destruct (decide (p = next)) as [->|Hne].
  - by rewrite !bool_decide_eq_true_2.
  - by rewrite !bool_decide_eq_false_2 by congruence.
Qed.

Section Container.
Variable default_activeFields : list string.

Local Abbreviation Dataset := (DatasetContainer.Dataset default_activeFields).
Local Abbreviation passes := (DatasetContainer.passes default_activeFields).

(** One pass, spelled out. *)
Lemma Dataset_run (v : Values) (h : Hooks) (w : World) :
  Dataset v h w
  = (inr (mkHooks (Some (dataset v)) (Some (isModalActive v)), render v),
     mkWorld
       (if bool_decide (modal_deps h = Some (isModalActive v))
        then document w
        else with_modal (isModalActive v) (document w))
       (if bool_decide (resetPaths_deps h = Some (dataset v))
        then activeFields w
        else default_activeFields)).
Proof.
  unfold DatasetContainer.Dataset, bind, resetPaths, modal_effect.
  rewrite commit_modify. rewrite commit_modify. unfold ret, with_modal.
  repeat case_bool_decide; destruct w; done.
Qed.

(** Over any passes the document is the one the instance found, with
    the two classes forced to the value committed last. *)
Lemma passes_document (vs : list Values) :
  ∀ (h : Hooks) (shown : list Node) (w : World) (doc0 : Document),
    document w
    = match modal_deps h with Some a => with_modal a doc0 | None => doc0 end →
    ∃ h' w',
      passes vs h shown w
      = (inr (h', match last vs with Some v => render v | None => shown end),
         w')
      ∧ modal_deps h'
        = match last vs with
          | Some v => Some (isModalActive v)
          | None => modal_deps h
          end
      ∧ document w'
        = match modal_deps h' with
          | Some a => with_modal a doc0
          | None => doc0
          end.
Proof.
  induction vs as [|v vs IH]; intros h shown w doc0 Hdoc.
  - exists h, w. by cbn.
  - cbn [DatasetContainer.passes]. unfold bind. rewrite Dataset_run.
    cbn [fst snd].
    edestruct (IH (mkHooks (Some (dataset v)) (Some (isModalActive v)))
                 (render v)
                 (mkWorld
                    (if bool_decide (modal_deps h = Some (isModalActive v))
                     then document w
                     else with_modal (isModalActive v) (document w))
                    (if bool_decide (resetPaths_deps h = Some (dataset v))
                     then activeFields w else default_activeFields))
                 doc0) as (h' & w' & Hrun & Hdeps & Hdoc').
    + cbn. case_bool_decide as Hm.
      * rewrite Hdoc, Hm. done.
      * rewrite Hdoc. destruct (modal_deps h); [|done].
        apply with_modal_twice.
    + exists h', w'. rewrite Hrun. rewrite last_cons.
      split; [|split; [|done]].
      * by destruct (last vs).
      * rewrite Hdeps. by destruct (last vs).
Qed.

(** X16. After any passes of a fresh instance, the document is the one
    the instance found with [noscroll] on the body and [modalon] on the
    modal element both set to the [isModalActive] of the last pass: the
    body carries [noscroll] exactly when the last pass rendered
    [<SampleModal />]; a missing modal element stays missing, and no
    pass throws. *)
Theorem modal_classes_follow_render (vs : list Values) (v : Values) (w : World) :
  ∃ h' w',
    passes (vs ++ [v]) (mkHooks None None) [] w = (inr (h', render v), w')
    ∧ document w' = with_modal (isModalActive v) (document w)
    ∧ ("noscroll" ∈ body_classList (document w') ↔ isModalActive v = true)
    ∧ ("noscroll" ∈ body_classList (document w') ↔ SampleModal ∈ render v)
    ∧ (∀ c, c ≠ "noscroll" →
         c ∈ body_classList (document w')
         ↔ c ∈ body_classList (document w))
    ∧ (modal_classList (document w) = None →
       modal_classList (document w') = None).
Proof.
  destruct (passes_document (vs ++ [v]) (mkHooks None None) [] w (document w))
    as (h' & w' & Hrun & Hdeps & Hdoc); [done|].
  rewrite last_snoc in Hrun, Hdeps. rewrite Hdeps in Hdoc.
  exists h', w'. split; [done|]. split; [done|]. rewrite Hdoc.
  cbn [with_modal body_classList modal_classList].
  split; [|split; [|split]].
  - rewrite toggle_elem. by rewrite decide_True.
  - rewrite toggle_elem, decide_True by done. unfold render.
    destruct (isModalActive v), (hasDataset v); cbn;
      rewrite ?elem_of_cons, ?elem_of_nil;
      (split; [intros ?; first [by left | done] | intuition congruence]).
  - intros c Hc. rewrite toggle_elem. by rewrite decide_False.
  - by intros ->.
Qed.

(** X17. The first pass of an instance resets the active fields to
    their default.  When the atom is written between two passes, the
    second pass keeps what was written if the dataset name is the one
    of the first pass, and resets it to the default if the name
    differs. *)
Theorem resetPaths_on_dataset_change
    (v1 v2 : Values) (paths : list string) (h : Hooks) (w : World) :
  activeFields (snd (Dataset v1 (mkHooks None (modal_deps h)) w))
    = default_activeFields
  ∧ activeFields
      (snd ((r1 <- Dataset v1 h ;;
             setActiveFields paths ;;
             Dataset v2 (fst r1)) w))
    = (if decide (dataset v2 = dataset v1) then paths
       else default_activeFields).
Proof.
  split.
  - by rewrite Dataset_run.
  - unfold bind. rewrite Dataset_run. cbn [fst snd setActiveFields modify].
    rewrite Dataset_run. cbn [snd activeFields resetPaths_deps].
    destruct (decide (dataset v2 = dataset v1)) as [->|Hne].
    + by rewrite bool_decide_eq_true_2.
    + by rewrite bool_decide_eq_false_2 by congruence.
Qed.

End Container.

End DatasetContainerFacts.
